(** * fp-toolkit: [Result] and [Async]

    A shallow embedding of [src/Result.ts] and [src/Async.ts].

    TypeScript functions become Rocq functions.  A call of a user-supplied
    callback may log observable side effects and may throw, so callbacks
    live in the [Sync] monad (a log of events and a completion).  A started
    promise is described by what it does on a virtual clock: the effects it
    performs, each with its time, and how and when it settles.  A producer
    ([Async<A>], a function [() => Promise<A>]) is a function of the time at
    which it is invoked.  The timer of the host is a parameter: what is
    proved of [delay] holds whatever the host makes of a delay. *)

From Stdlib Require Import List String ZArith QArith Qround Bool Arith Lia.
Import ListNotations.
Close Scope Q_scope.
Open Scope nat_scope.

Set Implicit Arguments.

(* ===================================================================== *)
(** * The host: values, synchronous calls *)
(* ===================================================================== *)

Module Js.

(** An [Error] object, as far as this library looks at it. *)
Record Error : Type := mkError { name : string; message : string }.

(** [Error(msg)]. *)
Definition new_Error (msg : string) : Error :=
  {| name := "Error"; message := msg |}.

(** An observable side effect: one line of a spy's call log. *)
Definition event : Type := string.

(** How a synchronous call ends: with a value, or by throwing one. *)
Inductive completion_ (V A : Type) : Type :=
| Normal (a : A)
| Throw (thrown : V).
Arguments Normal {V A} a.
Arguments Throw {V A} thrown.

(** What a [throw] can carry ([unknown] in the source): [undefined],
    [null], a boolean, a string, an [Error] object (anything that is
    [instanceof Error]), or any other value - a number, a symbol, an
    object, a function.  Of such a value this library only ever asks for
    [String(v)], which runs the value's own conversion: [JOther] holds what
    that conversion logs and how it ends, with a string or by throwing. *)
#[warnings="-register-all"]
Inductive jsval : Type :=
| JUndefined
| JNull
| JBool (b : bool)
| JStr (s : string)
| JError (e : Error)
| JOther (toString_log : list event) (toString_outcome : completion_ jsval string).

Definition completion (A : Type) : Type := completion_ jsval A.

(** A synchronous call: the events it logged, in order, and its completion. *)
Record Sync (A : Type) : Type := mkSync {
  log : list event;
  outcome : completion A
}.

Definition ret {A} (a : A) : Sync A := mkSync [] (Normal a).

(** [String(v)]: a call, since for an object it runs [toString]. *)
Definition String_ (v : jsval) : Sync string :=
  match v with
  | JUndefined => ret "undefined"%string
  | JNull => ret "null"%string
  | JBool true => ret "true"%string
  | JBool false => ret "false"%string
  | JStr s => ret s
  | JError e => ret (name e ++ ": " ++ message e)%string
  | JOther l o => mkSync l o
  end.

Definition throw {A} (v : jsval) : Sync A := mkSync [] (Throw v).

Definition tell (e : event) : Sync unit := mkSync [e] (Normal tt).
Arguments tell e%_string.

(** Sequencing: a throw skips the rest, what was logged stays logged. *)
Definition seq {A B} (m : Sync A) (k : A -> Sync B) : Sync B :=
  match outcome m with
  | Normal a => mkSync (log m ++ log (k a)) (outcome (k a))
  | Throw v => mkSync (log m) (Throw v)
  end.

(** [try { body } catch (err) { handler }]. *)
Definition try_catch {A} (body : Sync A) (handler : jsval -> Sync A) : Sync A :=
  match outcome body with
  | Normal a => body
  | Throw v => mkSync (log body ++ log (handler v)) (outcome (handler v))
  end.

End Js.

Import Js.

Declare Scope sync_scope.
Delimit Scope sync_scope with sync.
Notation "x <- c ;; k" := (seq c (fun x => k))
  (at level 61, c at next level, right associativity) : sync_scope.
Notation "c ;;; k" := (seq c (fun _ => k))
  (at level 61, right associativity) : sync_scope.
Open Scope sync_scope.


(* ===================================================================== *)
(** * Result.ts *)
(* ===================================================================== *)

Module Result.

(** [type Result<A, E> = Ok<A> | Err<E>], a union tagged by [_tag]. *)
Inductive Result (A E : Type) : Type :=
| Ok (ok : A)
| Err (err : E).
Arguments Ok {A E} ok.
Arguments Err {A E} err.

(** [const of = Ok]. *)
Definition of_ {A E} : A -> Result A E := Ok.

(** The type parameter [R] is erased at run time; what [isRawValue] can
    still ask of a value is [typeof].  [typeof_function r] is [None] when
    [typeof r] is not ["function"], and [Some call] when it is, [call t]
    being what the call [r(t)] does. *)
Class Typeof (T R : Type) : Type :=
  typeof_function : R -> option (T -> Sync R).

(** Strings and numbers are not functions. *)
#[export] Instance string_typeof {T} : Typeof T string := fun _ => None.
#[export] Instance Z_typeof {T} : Typeof T Z := fun _ => None.

(** A value of type [R | ((t: T) => R)], by the side of the union the
    caller wrote it at: something of type [R], with what [typeof] has to
    say about such values, or a lambda. *)
Inductive MatcherCase (T R : Type) : Type :=
| Value {typeof_R : Typeof T R} (r : R)
| Lambda (f : T -> Sync R).
Arguments Value {T R typeof_R} r.
Arguments Lambda {T R} f.

(** [interface ResultMatcher<A, E, R>]. *)
Record ResultMatcher (A E R : Type) : Type := {
  ok : MatcherCase A R;
  err : MatcherCase E R
}.

Section Match.
Context {A E R : Type}.

(** [typeof caseFn !== "function"]. *)
Definition isRawValue {T} (caseFn : MatcherCase T R) : bool :=
  match caseFn with
  | Value r => match typeof_function r with None => true | Some _ => false end
  | Lambda _ => false
  end.

(** [isRawValue(match) ? match : match(arg)]. *)
Definition getMatcherResult {T} (match_ : MatcherCase T R) (arg : T) : Sync R :=
  match match_ with
  | Value r =>
      match typeof_function r with
      | None => ret r
      | Some call => call arg
      end
  | Lambda f => f arg
  end.

(** [match(matcher)(result)]: a switch on [result._tag]. *)
Definition match_ (matcher : ResultMatcher A E R) (result : Result A E) : Sync R :=
  match result with
  | Ok a => getMatcherResult (ok matcher) a
  | Err e => getMatcherResult (err matcher) e
  end.
End Match.

Section Combinators.
Context {A B C D E E2 : Type}.

Definition map (f : A -> Sync B) : Result A E -> Sync (Result B E) :=
  match_ {| ok := Lambda (fun a => b <- f a ;; ret (Ok b));
            err := Lambda (fun e => ret (Err e)) |}.

Definition mapErr (f : E -> Sync E2) : Result A E -> Sync (Result A E2) :=
  match_ {| ok := Lambda (fun a => ret (Ok a));
            err := Lambda (fun e => e' <- f e ;; ret (Err e')) |}.

Definition mapBoth (mapOk : A -> Sync B) (mapErr : E -> Sync E2)
  : Result A E -> Sync (Result B E2) :=
  match_ {| ok := Lambda (fun a => b <- mapOk a ;; ret (Ok b));
            err := Lambda (fun e => e' <- mapErr e ;; ret (Err e')) |}.

(** [err: a]: the default is handed to the matcher as it is. *)
Definition defaultValue `{Typeof E A} (a : A) : Result A E -> Sync A :=
  match_ {| ok := Lambda (fun a => ret a);
            err := Value a |}.

(** [err: f], with [f: () => A]: the error it is called with is dropped. *)
Definition defaultWith (f : unit -> Sync A) : Result A E -> Sync A :=
  match_ {| ok := Lambda (fun a => ret a);
            err := Lambda (fun _ => f tt) |}.

Definition bind (f : A -> Sync (Result B E)) : Result A E -> Sync (Result B E) :=
  match_ {| ok := Lambda f;
            err := Lambda (fun e => ret (Err e)) |}.

Definition isOk (result : Result A E) : bool :=
  match result with Ok _ => true | Err _ => false end.

Definition isErr (result : Result A E) : bool :=
  match result with Ok _ => false | Err _ => true end.

(** The three branches of the source, in its order: both [Ok]; else the
    first is an [Err]; else (so the first is [Ok]) the second is. *)
Definition map2 (map : A -> B -> Sync C) (results : Result A E * Result B E)
  : Sync (Result C E) :=
  match results with
  | (Ok a, Ok b) => c <- map a b ;; ret (Ok c)
  | (Err e, _) => ret (Err e)
  | (Ok _, Err e) => ret (Err e)
  end.

Definition map3 (map : A -> B -> C -> Sync D)
  (results : Result A E * Result B E * Result C E) : Sync (Result D E) :=
  match results with
  | (Ok a, Ok b, Ok c) => d <- map a b c ;; ret (Ok d)
  | (Err e, _, _) => ret (Err e)
  | (Ok _, Err e, _) => ret (Err e)
  | (Ok _, Ok _, Err e) => ret (Err e)
  end.

(** [err instanceof Error ? err : Error(String(err))]. *)
Definition toError (err : jsval) : Sync Error :=
  match err with
  | JError e => ret e
  | _ => s <- String_ err ;; ret (new_Error s)
  end.

(** One body serves both overloads, so the error side is [any]: what
    [onThrow] made of the thrown value ([inl]), or the [Error] that
    [toError] made of it ([inr]).  [onThrow != null] is [Some]. *)
Definition tryCatch (mightThrow : unit -> Sync A) (onThrow : option (jsval -> Sync E))
  : Sync (Result A (E + Error)) :=
  try_catch
    (a <- mightThrow tt ;; ret (Ok a))
    (fun err =>
       match onThrow with
       | Some onThrow => e <- onThrow err ;; ret (Err (inl e))
       | None => e <- toError err ;; ret (Err (inr e))
       end).

Definition tee (f : A -> Sync unit) : Result A E -> Sync (Result A E) :=
  match_ {| ok := Lambda (fun a => f a ;;; ret (Ok a));
            err := Lambda (fun e => ret (Err e)) |}.

Definition teeErr (f : E -> Sync unit) : Result A E -> Sync (Result A E) :=
  match_ {| ok := Lambda (fun a => ret (Ok a));
            err := Lambda (fun e => f e ;;; ret (Err e)) |}.
End Combinators.

End Result.

(* ===================================================================== *)
(** * Async.ts *)
(* ===================================================================== *)

Module Async.

(** ** Numbers

  A JavaScript number is a double.  Comparison with zero and [Math.floor]
  are exact on doubles, so a finite double is modelled by the rational it
  denotes (negative zero is the rational zero). *)
Inductive number : Type :=
| NaN
| Infinity (negative : bool)
| Finite (q : Q).

Definition zero : number := Finite 0%Q.

(** [x <= 0]. *)
Definition le0 (x : number) : bool :=
  match x with
  | NaN => false
  | Infinity negative => negative
  | Finite q => Qle_bool q 0%Q
  end.

(** [Math.floor(x)]. *)
Definition Math_floor (x : number) : number :=
  match x with
  | Finite q => Finite (inject_Z (Qfloor q))
  | _ => x
  end.

(** [Math.max(x, y)]: [NaN] when either is. *)
Definition Math_max (x y : number) : number :=
  match x, y with
  | NaN, _ | _, NaN => NaN
  | Infinity false, _ | _, Infinity false => Infinity false
  | Infinity true, _ => y
  | _, Infinity true => x
  | Finite p, Finite q => if Qle_bool p q then y else x
  end.

(** ** Promises on a virtual clock *)

(** How a promise ends, and when. *)
Inductive settlement (A : Type) : Type :=
| Fulfilled (time : nat) (value : A)
| Rejected (time : nat) (reason : jsval)
| Pending.
Arguments Rejected {A} time reason.
Arguments Pending {A}.

(** A started promise: the effects of the computation behind it, each with
    the time it happens at, and its settlement. *)
Record Promise (A : Type) : Type := mkPromise {
  effects : list (nat * event);
  settled : settlement A
}.

(** [interface Async<A> { (): Promise<A> }]: what invoking the producer at
    a given time starts.  Invoking it again starts it again.  The call is
    taken to return its promise: a producer that fails does so by a
    rejected promise, as every [async] function does. *)
Definition Async (A : Type) : Type := nat -> Promise A.

(** The body of an [async] function from some point on: what it does when
    control reaches that point at a given time. *)
Definition Body (A : Type) : Type := nat -> Promise A.

Definition stamp (t : nat) (l : list event) : list (nat * event) :=
  List.map (pair t) l.

(** A settlement seen by someone who only looks from time [t] on. *)
Definition not_before {A} (t : nat) (s : settlement A) : settlement A :=
  match s with
  | Fulfilled u a => Fulfilled (Nat.max t u) a
  | Rejected u e => Rejected (Nat.max t u) e
  | Pending => Pending
  end.

(** A value of type [A | PromiseLike<A>], as [Promise.resolve] takes it
    and as a callback of [then] returns it: a value that is not a promise,
    or a promise, given by how it settles.  A promise is never fulfilled
    with a promise, so the values inside a [settlement] are of the first
    kind, and a type variable stands for values of the first kind. *)
Inductive Resolvable (A : Type) : Type :=
| Plain (a : A)
| APromise (p : settlement A).
Arguments Plain {A} a.
Arguments APromise {A} p.

(** What a promise that is resolved with [v] at time [t] comes to: fulfilled
    with a plain value, or following a promise. *)
Definition resolved {A} (v : Resolvable A) (t : nat) : settlement A :=
  match v with
  | Plain a => Fulfilled t a
  | APromise p => not_before t p
  end.

(** [Promise.resolve(v)]. *)
Definition Promise_resolve {A} (v : Resolvable A) : Body A :=
  fun now => mkPromise [] (resolved v now).

(** [return a] at the end of an [async] function, of a value that is not
    a promise (here always something awaited, or an array). *)
Definition return_ {A} (a : A) : Body A :=
  fun now => mkPromise [] (Fulfilled now a).

(** [p.then(f)].  [f] runs once [p] is fulfilled; the new promise is
    resolved with what [f] returns, a promise included, and rejected with
    what it throws. *)
Definition then_ {A B} (p : Promise A) (f : A -> Sync (Resolvable B)) : Body B :=
  fun now =>
    match settled p with
    | Fulfilled t a =>
        let t' := Nat.max now t in
        mkPromise (effects p ++ stamp t' (log (f a)))
          match outcome (f a) with
          | Normal v => resolved v t'
          | Throw v => Rejected t' v
          end
    | Rejected t e => mkPromise (effects p) (Rejected (Nat.max now t) e)
    | Pending => mkPromise (effects p) Pending
    end.

(** [p.then(f)] for a callback of this library that starts a producer and
    returns its promise, which the new promise follows.  The callback is
    given the time it runs at, to start the producer at. *)
Definition then_flat {A B} (p : Promise A) (f : A -> nat -> Sync (Promise B)) : Body B :=
  fun now =>
    match settled p with
    | Fulfilled t a =>
        let t' := Nat.max now t in
        match outcome (f a t') with
        | Normal q =>
            mkPromise (effects p ++ stamp t' (log (f a t')) ++ effects q)
                      (not_before t' (settled q))
        | Throw v =>
            mkPromise (effects p ++ stamp t' (log (f a t'))) (Rejected t' v)
        end
    | Rejected t e => mkPromise (effects p) (Rejected (Nat.max now t) e)
    | Pending => mkPromise (effects p) Pending
    end.

(** [const a = await p; rest] in an [async] function without [try]: the
    rest runs once [p] is fulfilled; a rejection of [p] rejects the
    function's promise, and the rest never runs. *)
Definition await {A B} (p : Promise A) (rest : A -> Body B) : Body B :=
  fun now =>
    match settled p with
    | Fulfilled t a =>
        let q := rest a (Nat.max now t) in
        mkPromise (effects p ++ effects q) (settled q)
    | Rejected t e => mkPromise (effects p) (Rejected (Nat.max now t) e)
    | Pending => mkPromise (effects p) Pending
    end.

(** A synchronous statement in an [async] function. *)
Definition exec {A B} (s : Sync A) (rest : A -> Body B) : Body B :=
  fun now =>
    match outcome s with
    | Normal a =>
        let q := rest a now in
        mkPromise (stamp now (log s) ++ effects q) (settled q)
    | Throw v => mkPromise (stamp now (log s)) (Rejected now v)
    end.

(** The host's timer, which this library does not define: [fires delay
    now] is the time at which a timer set at [now] with [setTimeout(_,
    delay)] fires.  How a host reads a delay (its rounding, its smallest
    and largest delay, what it makes of what is not a number) is left to
    the host; a timer does not fire before it is set. *)
Class Host : Type := {
  fires : number -> nat -> nat;
  fires_later : forall delay now, now <= fires delay now
}.

(** [new Promise(resolve => setTimeout(resolve, delay))]. *)
Definition sleep {host : Host} (delay : number) : Body unit :=
  fun now => mkPromise [] (Fulfilled (fires delay now) tt).

(** The rejection that [Promise.all], called at [now], comes to know
    first.  It hears of a rejection when its reaction to it runs: at the
    time of the rejection, or at [now] for a promise that was rejected
    before.  Reactions of one time run in the order of the list. *)
Fixpoint first_rejection {A} (now : nat) (ss : list (settlement A))
  : option (nat * jsval) :=
  match ss with
  | [] => None
  | s :: rest =>
      match s, first_rejection now rest with
      | Rejected t e, Some (t', e') =>
          if Nat.max now t <=? t' then Some (Nat.max now t, e) else Some (t', e')
      | Rejected t e, None => Some (Nat.max now t, e)
      | _, r => r
      end
  end.

(** The values of a list of settlements, in the order of the list, with the
    time of the last fulfilment; [None] unless all are fulfilled. *)
Fixpoint all_fulfilled {A} (ss : list (settlement A)) : option (nat * list A) :=
  match ss with
  | [] => Some (0, [])
  | Fulfilled t a :: rest =>
      match all_fulfilled rest with
      | Some (t', vs) => Some (Nat.max t t', a :: vs)
      | None => None
      end
  | _ :: _ => None
  end.

(** [Promise.all(promises)]: rejected as soon as one of them is, fulfilled
    with all the values once all of them are. *)
Definition Promise_all {A} (promises : list (Promise A)) : Body (list A) :=
  fun now =>
    mkPromise (List.concat (List.map (@effects A) promises))
      match first_rejection now (List.map (@settled A) promises) with
      | Some (t, e) => Rejected t e
      | None =>
          match all_fulfilled (List.map (@settled A) promises) with
          | Some (t, vs) => Fulfilled (Nat.max now t) vs
          | None => Pending
          end
      end.

(** What an observer sees of a list of timed effects: the effects by time,
    those of the same time in the order of the list. *)
Fixpoint insert_by_time (x : nat * event) (l : list (nat * event)) : list (nat * event) :=
  match l with
  | [] => [x]
  | y :: rest => if fst x <? fst y then x :: l else y :: insert_by_time x rest
  end.

Definition timeline (l : list (nat * event)) : list (nat * event) :=
  fold_left (fun acc x => insert_by_time x acc) l [].

(** ** The combinators *)

Section Combinators.
Context {A B : Type} {host : Host}.

Definition of_ (a : Resolvable A) : Async A :=
  fun now => Promise_resolve a now.

Definition map (f : A -> Sync (Resolvable B)) (async : Async A) : Async B :=
  fun now => then_ (async now) f now.

(** The callback is [a => f(a)()]. *)
Definition bind (f : A -> Sync (Async B)) (async : Async A) : Async B :=
  fun now => then_flat (async now) (fun a t => g <- f a ;; ret (g t)) now.

(** The callback is [inner => inner()]. *)
Definition flatten (async : Async (Async A)) : Async A :=
  fun now => then_flat (async now) (fun inner t => ret (inner t)) now.

Definition delay (delayInMilliseconds : number) (async : Async A) : Async A :=
  fun now =>
    let delay := if le0 delayInMilliseconds then zero
                 else Math_floor delayInMilliseconds in
    await (sleep delay now) (fun _ now =>
    await (async now) (fun a =>
    return_ a) now) now.

(** The [for] loop from index [i] on, [asyncs] being what is left of the
    array from there; [results.push(r)] is [results ++ [r]]. *)
Fixpoint sequential_loop (asyncs : list (Async A)) (results : list A) : Body (list A) :=
  match asyncs with
  | [] => return_ results
  | async :: rest =>
      fun now =>
        await (async now) (fun r => sequential_loop rest (results ++ [r])) now
  end.

Definition sequential (asyncs : list (Async A)) : Async (list A) :=
  fun now => sequential_loop asyncs [] now.

Definition start (async : Async A) : Body A :=
  fun now => async now.

Definition parallel (asyncs : list (Async A)) : Async (list A) :=
  fun now => Promise_all (List.map (fun async => start async now) asyncs) now.

(** The promise is handed out as it is: it was started when it was made. *)
Definition ofPromise (promise : Promise A) : Async A :=
  fun _ => promise.

Definition tee (f : A -> Sync unit) (async : Async A) : Async A :=
  fun now =>
    await (async now) (fun a =>
    exec (f a) (fun _ =>
    return_ a)) now.

Definition never : Async A :=
  fun _ => mkPromise [] Pending.

(** [f] is called with the arguments kept, each time the producer is
    invoked; [Args] stands for the tuple of its parameters. *)
Definition asyncify {Args : Type} (f : Args -> Body A) (args : Args) : Async A :=
  fun now => f args now.
End Combinators.

(** [of({})], the empty object being the one value of its type. *)
Definition unit_ : Async unit := of_ (Plain tt).

End Async.

(* ===================================================================== *)
(** * What the specification speaks of *)
(* ===================================================================== *)

Module Spec.
Import Result Async.

(** The error a [Result] holds, if it is an [Err]. *)
Definition err_of {A E} (r : Result A E) : option E :=
  match r with
  | Ok _ => None
  | Err e => Some e
  end.

(** The first [Err] of a tuple in positional order, the tuple given by the
    errors of its elements. *)
Fixpoint first_Err {E} (errs : list (option E)) : option E :=
  match errs with
  | [] => None
  | Some e :: _ => Some e
  | None :: rest => first_Err rest
  end.

(** [Object.create(null)]: an object with no [toString], of which
    [String] throws a [TypeError]. *)
Definition cannot_convert : Error :=
  {| name := "TypeError"; message := "Cannot convert object to primitive value" |}.

Definition bare_object : jsval := JOther [] (Throw (JError cannot_convert)).

(** A runtime value that is a number or a function of the error, to try
    [defaultValue] on: [typeof] tells the two apart, and calling the
    function gives a number. *)
Inductive default_arg : Type :=
| Num (n : Z)
| Fun (f : string -> Z).

#[export] Instance default_arg_typeof : Typeof string default_arg := fun v =>
  match v with
  | Num _ => None
  | Fun f => Some (fun e => tell "called" ;;; ret (Num (f e)))
  end.

(** A producer does no work before it is started: whenever it is invoked,
    none of its effects is earlier than the invocation, and neither is its
    settlement. *)
Definition settles_from {A} (now : nat) (s : settlement A) : Prop :=
  match s with
  | Fulfilled t _ | Rejected t _ => now <= t
  | Pending => True
  end.

Definition cold {A} (async : Async A) : Prop :=
  forall now,
    (forall t e, In (t, e) (effects (async now)) -> now <= t) /\
    settles_from now (settled (async now)).

(** What is seen of a producer that is started at the given times, and at
    no other time. *)
Definition observed {A} (async : Async A) (starts : list nat) : list (nat * event) :=
  flat_map (fun s => effects (async s)) starts.

(** Producers run one at a time, in order, from time [now]: the first is
    invoked at [now], the next one when the promise of the one before is
    fulfilled, and none after a promise that is not.  The run is the list
    of the invocations made, each with its time and the promise it gave. *)
Fixpoint in_series {A} (asyncs : list (Async A)) (now : nat) : list (nat * Promise A) :=
  match asyncs with
  | [] => []
  | async :: rest =>
      (now, async now) ::
      match settled (async now) with
      | Fulfilled t _ => in_series rest (Nat.max now t)
      | _ => []
      end
  end.

Definition fulfilled {A} (p : Promise A) : bool :=
  match settled p with
  | Fulfilled _ _ => true
  | _ => false
  end.

(** The values of the fulfilled promises of a run, in its order. *)
Definition values {A} (steps : list (nat * Promise A)) : list A :=
  flat_map (fun step => match settled (snd step) with
                        | Fulfilled _ a => [a]
                        | _ => []
                        end) steps.

(** The time at which a run that started at [now] is over. *)
Fixpoint finish {A} (steps : list (nat * Promise A)) (now : nat) : nat :=
  match steps with
  | [] => now
  | (s, p) :: rest =>
      finish rest match settled p with
                  | Fulfilled t _ => Nat.max s t
                  | _ => s
                  end
  end.

(** Two producers to try things on: one that logs its value when it runs,
    and one that logs and is rejected three time units later. *)
Definition spy (r : string) : Async string :=
  tee (fun a => tell a) (of_ (Plain r)).

Definition failing : Async string :=
  fun now => mkPromise [(now, "failing"%string)] (Rejected (now + 3) (JStr "no")).

(** Three hosts to try things on.  The timer of the first takes as many
    time units as the delay says, rounded down, and none for what is
    negative or not a finite number.  The timer of the second takes long
    when it is handed anything but a natural number.  The timer of the
    third, like that of Node, takes one time unit for a delay below 1 or
    above 2^31 - 1. *)
Definition units (delay : number) : nat :=
  match delay with
  | Finite q => Z.to_nat (Qfloor q)
  | _ => 0
  end.

Definition punctual : Host :=
  {| fires := fun delay now => now + units delay;
     fires_later := fun delay now => Nat.le_add_r now (units delay) |}.

Definition is_natural (delay : number) : bool :=
  match delay with
  | Finite q => Qeq_bool q (inject_Z (Z.of_nat (Z.to_nat (Qfloor q))))
  | _ => false
  end.

Definition fussy : Host :=
  {| fires := fun delay now =>
                now + (if is_natural delay then units delay else 1000);
     fires_later := fun delay now =>
                      Nat.le_add_r now (if is_natural delay then units delay else 1000) |}.

Definition one_at_least (delay : number) : nat :=
  match delay with
  | Finite q =>
      if ((1 <=? Qfloor q)%Z && (Qfloor q <=? 2147483647)%Z)%bool
      then Z.to_nat (Qfloor q) else 1
  | _ => 1
  end.

Definition node_like : Host :=
  {| fires := fun delay now => now + one_at_least delay;
     fires_later := fun delay now => Nat.le_add_r now (one_at_least delay) |}.

Definition three_spies : list (Async string) :=
  [delay (host:=punctual) (Finite 50) (spy "r1");
   delay (host:=punctual) (Finite 10) (spy "r2"); spy "r3"].

Definition two_spies : list (Async string) :=
  [delay (host:=punctual) (Finite 50) (spy "r1");
   delay (host:=punctual) (Finite 10) (spy "r2")].

(** The delay that [delay(ms)] is to set its timer with:
    [max(0, floor(ms))]. *)
Definition normalized (ms : number) : number :=
  Math_max zero (Math_floor ms).

(** A settlement with something done to its value. *)
Definition map_value {A B} (f : A -> B) (s : settlement A) : settlement B :=
  match s with
  | Fulfilled t a => Fulfilled t (f a)
  | Rejected t e => Rejected t e
  | Pending => Pending
  end.

End Spec.

(* ===================================================================== *)
(** * Facts about [Sync] *)
(* ===================================================================== *)

Section SyncLaws.
Context {A B C : Type}.

Lemma seq_ret_l (a : A) (k : A -> Sync B) : (x <- ret a ;; k x) = k a.
Proof. unfold seq; simpl. destruct (k a); reflexivity. Qed.

Lemma seq_ret_r (m : Sync A) : (x <- m ;; ret x) = m.
Proof.
  destruct m as [l [a | v]]; unfold seq; simpl; try reflexivity.
  now rewrite app_nil_r.
Qed.

Lemma seq_assoc (m : Sync A) (f : A -> Sync B) (g : B -> Sync C) :
  (y <- (x <- m ;; f x) ;; g y) = (x <- m ;; y <- f x ;; g y).
Proof.
  destruct m as [l [a | v]]; unfold seq; simpl; try reflexivity.
  destruct (f a) as [l' [b | v']]; simpl; try reflexivity.
  now rewrite app_assoc.
Qed.

Lemma seq_throw (v : jsval) (k : A -> Sync B) : (x <- throw v ;; k x) = throw v.
Proof. reflexivity. Qed.
End SyncLaws.

(* ===================================================================== *)
(** * Facts about [Result] *)
(* ===================================================================== *)

Module ResultFacts.
Import Result Spec.

Section Facts.
Context {A B C D E E2 : Type}.

Lemma map_Ok (f : A -> Sync B) (a : A) :
  map (E:=E) f (Ok a) = (b <- f a ;; ret (Ok b)).
Proof. reflexivity. Qed.

Lemma bind_Ok (f : A -> Sync (Result B E)) (a : A) : bind f (Ok a) = f a.
Proof. reflexivity. Qed.

Lemma bind_Err (f : A -> Sync (Result B E)) (e : E) : bind f (Err e) = ret (Err e).
Proof. reflexivity. Qed.

(** [map(id)] leaves an [Ok] as it is. *)
Lemma map_id (a : A) : map (E:=E) (fun x => ret x) (Ok a) = ret (Ok a).
Proof. reflexivity. Qed.
End Facts.

(** [getMatcherResult] is the conditional of the source: the case itself
    when [isRawValue] holds of it, the case called with the argument when
    it does not. *)
Lemma getMatcherResult_isRawValue {T R} (c : MatcherCase T R) (arg : T) :
  (isRawValue c = true ->
   exists (H : Typeof T R) (r : R), c = Value r /\ getMatcherResult c arg = ret r) /\
  (isRawValue c = false ->
   (exists f, c = Lambda f /\ getMatcherResult c arg = f arg) \/
   (exists (H : Typeof T R) (r : R) call,
       c = Value r /\ typeof_function r = Some call /\
       getMatcherResult c arg = call arg)).
Proof.
  destruct c as [H r | f]; simpl.
  - destruct (typeof_function r) as [call |] eqn:Hr; split; intros Hraw;
      try discriminate.
    + right. exists H, r, call. auto.
    + exists H, r. auto.
  - split; intros Hraw; [discriminate |]. left. eauto.
Qed.

(** C5: [map2] and [map3] give [Ok] of the combining function applied to
    the payloads when every element of the tuple is an [Ok]; otherwise they
    give the first [Err] of the tuple in positional order, whatever comes
    after it, and the combining function is not called.  In particular
    [map2(f)([Err(x), Err(y)])] is [Err(x)]. *)
Theorem map2_map3_first_error (A B C D E : Type) :
  (forall (f : A -> B -> Sync D) a b,
      map2 (E:=E) f (Ok a, Ok b) = (d <- f a b ;; ret (Ok d))) /\
  (forall (f : A -> B -> Sync D) (r0 : Result A E) (r1 : Result B E) e,
      first_Err [err_of r0; err_of r1] = Some e ->
      map2 f (r0, r1) = ret (Err e)) /\
  (forall (f : A -> B -> Sync D) (x y : E),
      map2 f (Err x, Err y) = ret (Err x)) /\
  (forall (f : A -> B -> C -> Sync D) a b c,
      map3 (E:=E) f (Ok a, Ok b, Ok c) = (d <- f a b c ;; ret (Ok d))) /\
  (forall (f : A -> B -> C -> Sync D)
          (r0 : Result A E) (r1 : Result B E) (r2 : Result C E) e,
      first_Err [err_of r0; err_of r1; err_of r2] = Some e ->
      map3 f (r0, r1, r2) = ret (Err e)).
Proof.
  repeat split; intros; try reflexivity.
  - destruct r0, r1; simpl in *; congruence.
  - destruct r0, r1, r2; simpl in *; congruence.
Qed.

(** The three examples of the specification, the last one through the
    theorem: the first of two errors wins. *)
Lemma map2_map3_first_error_witness :
  map2 (fun a b => ret (a + b)%Z) (Ok (E:=string) 2%Z, Ok 3%Z) = ret (Ok 5%Z) /\
  map2 (fun a b => ret (a + b)%Z) (Err "x"%string, Ok 1%Z) = ret (Err "x"%string) /\
  first_Err [err_of (A:=Z) (Err "x"%string); err_of (A:=Z) (Err "y"%string)]
    = Some "x"%string /\
  map2 (fun a b => ret (a + b)%Z) (Err "x"%string, Err "y"%string)
    = ret (Err "x"%string).
Proof.
  split; [reflexivity |].
  split; [reflexivity |].
  split; [reflexivity |].
  apply (proj1 (proj2 (map2_map3_first_error Z Z Z Z string))).
  reflexivity.
Defined.

(** C6: [map] and [bind] hand an [Err] on as it is, [mapErr] hands an [Ok]
    on as it is, and the function given is not called: nothing is logged
    and nothing is thrown, whatever the function would log or throw. *)
Theorem err_passes_through (A B E E2 : Type) :
  (forall (f : A -> Sync B) (e : E), map f (Err e) = ret (Err e)) /\
  (forall (f : A -> Sync (Result B E)) (e : E), bind f (Err e) = ret (Err e)) /\
  (forall (f : E -> Sync E2) (a : A), mapErr f (Ok a) = ret (Ok a)) /\
  (forall (f : A -> Sync B) (e : E), log (map f (Err e)) = []) /\
  (forall (f : A -> Sync (Result B E)) (e : E), log (bind f (Err e)) = []) /\
  (forall (f : E -> Sync E2) (a : A), log (mapErr f (Ok a)) = []).
Proof. repeat split. Qed.

(** C7: [tryCatch(f)] is to give [Err] of a new [Error] with the thrown
    value as a string whenever [f] throws something that is not an [Error]
    and no [onThrow] is given.  The code does not, for every [f]: it makes
    the string by [String(err)] inside the [catch] block, and when that
    conversion itself throws, as it does for an object without [toString],
    [tryCatch] throws what the conversion threw instead of returning. *)
Theorem tryCatch_throws_on_bare_object (A E : Type) :
  tryCatch (E:=E) (fun _ => throw (A:=A) bare_object) None
  = throw (JError cannot_convert).
Proof. reflexivity. Qed.

(** C8: [bind] is associative on an [Ok]. *)
Theorem bind_assoc (A B C E : Type)
  (a : A) (f : A -> Sync (Result B E)) (g : B -> Sync (Result C E)) :
  (r <- bind f (Ok a) ;; bind g r)
  = bind (fun a2 => r <- f a2 ;; bind g r) (Ok a).
Proof. reflexivity. Qed.

(** C10: when the default handed to [defaultValue] is a function, an [Err]
    does not get that function back: the function is called with the error
    and what it returns is the outcome.  A default that is not a function
    comes back as it is. *)
Theorem defaultValue_function_default (A E : Type)
  (typeof_A : Typeof E A) (f : A) (e : E) :
  (forall call,
      typeof_function f = Some call ->
      isRawValue (T:=E) (Value f) = false /\
      defaultValue f (Err e) = call e) /\
  (typeof_function f = None ->
   isRawValue (T:=E) (Value f) = true /\
   defaultValue f (Err e) = ret f).
Proof.
  unfold defaultValue, match_, getMatcherResult, isRawValue; simpl.
  split.
  - intros call H. now rewrite H.
  - intros H. now rewrite H.
Qed.

Lemma defaultValue_function_default_witness :
  defaultValue (E:=string) (Fun (fun e => Z.of_nat (String.length e))) (Err "oops"%string)
  = (tell "called" ;;; ret (Num 4)).
Proof.
  exact (proj2 (proj1 (@defaultValue_function_default default_arg string _
                         (Fun (fun e => Z.of_nat (String.length e))) "oops"%string)
                      (fun e => tell "called" ;;; ret (Num (Z.of_nat (String.length e))))
                      eq_refl)).
Defined.

End ResultFacts.

(* ===================================================================== *)
(** * Facts about [Async] *)
(* ===================================================================== *)

Module AsyncFacts.
Import Async Spec.

Lemma promise_eta {A} (p : Promise A) : mkPromise (effects p) (settled p) = p.
Proof. now destruct p. Qed.

Lemma in_stamp (t u : nat) (e : event) (l : list event) :
  In (u, e) (stamp t l) -> u = t.
Proof.
  unfold stamp. rewrite in_map_iff. intros [x [H _]]. congruence.
Qed.

Lemma settles_from_not_before {A} (now t : nat) (s : settlement A) :
  now <= t -> settles_from now (not_before t s).
Proof. destruct s; simpl; lia. Qed.

Lemma settles_from_le {A} (now t : nat) (s : settlement A) :
  now <= t -> settles_from t s -> settles_from now s.
Proof. destruct s; simpl; lia. Qed.

(** Splits a goal about the effects of a combinator into its parts. *)
Ltac effects_cases :=
  repeat match goal with
         | H : In _ (_ ++ _) |- _ => apply in_app_or in H; destruct H
         | H : In _ (stamp _ _) |- _ => apply in_stamp in H; subst
         | H : In _ [] |- _ => destruct H
         end.

Lemma settles_from_resolved {A} (now t : nat) (v : Resolvable A) :
  now <= t -> settles_from now (resolved v t).
Proof. destruct v as [a | p]; simpl; [lia | apply settles_from_not_before]. Qed.

Section Cold.
Context {A B : Type} {host : Host}.

Lemma cold_of (v : Resolvable A) : cold (of_ v).
Proof.
  intros now. split; simpl; [tauto | now apply settles_from_resolved].
Qed.

Lemma cold_map (f : A -> Sync (Resolvable B)) (async : Async A) :
  cold async -> cold (map f async).
Proof.
  intros H now. destruct (H now) as [He Hs].
  unfold map, then_. destruct (settled (async now)) as [t a | t e |]; simpl in *.
  - split.
    + intros u e Hin. effects_cases; [eauto | lia].
    + destruct (outcome (f a)); simpl; [apply settles_from_resolved |]; lia.
  - split; [eauto | lia].
  - split; [eauto | exact I].
Qed.

Lemma cold_bind (f : A -> Sync (Async B)) (async : Async A) :
  cold async ->
  (forall a g, outcome (f a) = Normal g -> cold g) ->
  cold (bind f async).
Proof.
  intros H Hf now. destruct (H now) as [He Hs].
  unfold bind, then_flat. destruct (settled (async now)) as [t a | t e |]; simpl in *.
  - unfold seq. destruct (outcome (f a)) as [g | v] eqn:Hg; simpl.
    + destruct (Hf a g Hg (Nat.max now t)) as [Hge Hgs].
      split.
      * intros u e Hin. rewrite app_nil_r in Hin.
        effects_cases; [eauto | lia |].
        apply Hge in H0. lia.
      * apply settles_from_not_before. lia.
    + split; [| simpl; lia].
      intros u e Hin. effects_cases; [eauto | lia].
  - split; [eauto | lia].
  - split; [eauto | exact I].
Qed.

(** [delay] starts the producer when the timer fires that it has set on
    being started, and settles as the producer does. *)
Lemma delay_unfold (ms : number) (async : Async A) (now : nat) :
  let T := fires (if le0 ms then zero else Math_floor ms) now in
  delay ms async now
  = mkPromise (effects (async T)) (not_before T (settled (async T))).
Proof.
  intros T. unfold delay, await, sleep, return_. fold T. simpl.
  assert (HT : now <= T) by apply fires_later.
  replace (Nat.max now T) with T by lia.
  destruct (settled (async T)); simpl; now rewrite ?app_nil_r.
Qed.

Lemma cold_delay (ms : number) (async : Async A) :
  cold async -> cold (delay ms async).
Proof.
  intros H now. rewrite delay_unfold. cbv zeta. simpl.
  pose proof (fires_later (if le0 ms then zero else Math_floor ms) now) as HT.
  destruct (H (fires (if le0 ms then zero else Math_floor ms) now)) as [He Hs].
  split.
  - intros u e Hin. pose proof (He _ _ Hin). lia.
  - apply settles_from_not_before. lia.
Qed.
End Cold.

(** Whatever is seen of a cold producer was caused by a start that came
    first. *)
Lemma cold_observed {A} (async : Async A) (starts : list nat) (t : nat) (e : event) :
  cold async ->
  In (t, e) (observed async starts) ->
  exists s, In s starts /\ s <= t.
Proof.
  intros H Hin. unfold observed in Hin. apply in_flat_map in Hin.
  destruct Hin as [s [Hs Hin]]. exists s. split; [exact Hs |].
  now apply (proj1 (H s)) in Hin.
Qed.

(** The delay handed to the timer is [Math.max(0, Math.floor(ms))], for
    every number. *)
Lemma delay_normalized (ms : number) :
  (if le0 ms then zero else Math_floor ms) = normalized ms.
Proof.
  unfold normalized.
  destruct ms as [| [|] | q]; try reflexivity.
  unfold le0, Math_floor, Math_max, zero.
  destruct (Qle_bool q 0) eqn:Hq.
  - apply Qle_bool_iff in Hq.
    assert (Hz : (Qfloor q <= 0)%Z).
    { change 0%Z with (Qfloor 0). now apply Qfloor_resp_le. }
    destruct (Qle_bool 0 (inject_Z (Qfloor q))) eqn:Hf; [| reflexivity].
    apply Qle_bool_iff in Hf. change 0%Q with (inject_Z 0) in Hf.
    rewrite <- Zle_Qle in Hf.
    replace (Qfloor q) with 0%Z by lia. reflexivity.
  - assert (Hz : (0 <= Qfloor q)%Z).
    { change 0%Z with (Qfloor 0). apply Qfloor_resp_le.
      destruct (Qlt_le_dec 0 q) as [Hlt | Hle].
      - now apply Qlt_le_weak.
      - apply Qle_bool_iff in Hle. congruence. }
    destruct (Qle_bool 0 (inject_Z (Qfloor q))) eqn:Hf; [reflexivity |].
    assert (Hle : (0 <= inject_Z (Qfloor q))%Q).
    { change 0%Q with (inject_Z 0). now rewrite <- Zle_Qle. }
    apply Qle_bool_iff in Hle. congruence.
Qed.

(** For a finite number, [max(0, floor(ms))] is the integer
    [Z.max 0 (Qfloor q)]. *)
Lemma normalized_finite (q : Q) :
  normalized (Finite q) = Finite (inject_Z (Z.max 0 (Qfloor q))).
Proof.
  unfold normalized, Math_max, Math_floor, zero.
  destruct (Qle_bool 0 (inject_Z (Qfloor q))) eqn:Hf.
  - apply Qle_bool_iff in Hf. change 0%Q with (inject_Z 0) in Hf.
    rewrite <- Zle_Qle in Hf. now rewrite Z.max_r.
  - assert (Hz : (Qfloor q < 0)%Z).
    { destruct (Z_lt_le_dec (Qfloor q) 0) as [Hlt | Hle]; [exact Hlt |].
      assert (H0 : (0 <= inject_Z (Qfloor q))%Q).
      { change 0%Q with (inject_Z 0). now rewrite <- Zle_Qle. }
      apply Qle_bool_iff in H0. congruence. }
    rewrite Z.max_l by lia. reflexivity.
Qed.

(** C1: a producer built by [of], [map], [bind] or [delay] does nothing
    before it is started: building it is a pure step that yields a
    function of the time of invocation, and once invoked none of its
    effects (a call of the function given to [map] or [bind] included) and
    no settlement is earlier than the invocation, as long as the same
    holds of the producers it is built from.  [of] itself has no effects.
    So whatever is seen of such a producer comes after a start of it, and
    nothing is seen of one that is never started.  This holds whatever
    [of] is given and whatever the function given to [map] returns, a
    promise included, and on every host. *)
Theorem construction_performs_no_work (A B : Type) :
  (forall (v : Resolvable A) now, effects (of_ v now) = []) /\
  (forall async : Async B, observed async [] = []) /\
  (forall (async : Async B) starts t e,
      cold async ->
      In (t, e) (observed async starts) ->
      exists s, In s starts /\ s <= t) /\
  (forall v : Resolvable A, cold (of_ v)) /\
  (forall (f : A -> Sync (Resolvable B)) async, cold async -> cold (map f async)) /\
  (forall (f : A -> Sync (Async B)) async,
      cold async ->
      (forall a g, outcome (f a) = Normal g -> cold g) ->
      cold (bind f async)) /\
  (forall (host : Host) ms (async : Async A), cold async -> cold (delay ms async)).
Proof.
  split; [reflexivity |].
  split; [reflexivity |].
  split; [intros async starts t e; apply cold_observed |].
  split; [apply cold_of |].
  split; [apply cold_map |].
  split; [apply cold_bind | intros host; apply cold_delay].
Qed.

(** The pause of [delay(ms)] is not [max(0, floor(ms))] time units on
    every host: where the timer takes one time unit for a delay of zero,
    [delay(0)] pauses for one. *)
Lemma delay_pause_not_exact :
  ~ (forall (host : Host) (ms : number) (now : nat),
        settled (delay ms (of_ (Plain tt)) now)
        = Fulfilled (now + units (normalized ms)) tt).
Proof.
  intros H. specialize (H node_like zero 10). cbv in H. discriminate H.
Qed.

(** C4, as amended: on every host, [delay(ms)] sets the timer with exactly
    [max(0, floor(ms))], for every number [ms], and starts the wrapped
    producer when that timer fires: the effects and the settlement are
    those of the wrapped producer invoked then, and nothing is rejected on
    account of [ms].  For a finite [ms] the delay handed to the timer is
    the integer [max(0, floor(ms))], so that a host whose timer takes that
    many time units for it makes [delay] pause for exactly that many.  A
    delay that is zero or less is the delay zero. *)
Theorem delay_pauses_normalized (host : Host) (A : Type)
  (ms : number) (async : Async A) (now : nat) :
  effects (delay ms async now) = effects (async (fires (normalized ms) now)) /\
  settled (delay ms async now)
  = not_before (fires (normalized ms) now)
               (settled (async (fires (normalized ms) now))) /\
  (forall q, ms = Finite q ->
             normalized ms = Finite (inject_Z (Z.max 0 (Qfloor q)))) /\
  (forall q,
      ms = Finite q ->
      fires (Finite (inject_Z (Z.max 0 (Qfloor q)))) now
      = now + Z.to_nat (Z.max 0 (Qfloor q)) ->
      delay ms async now
      = mkPromise (effects (async (now + Z.to_nat (Z.max 0 (Qfloor q)))))
                  (not_before (now + Z.to_nat (Z.max 0 (Qfloor q)))
                              (settled (async (now + Z.to_nat (Z.max 0 (Qfloor q))))))) /\
  (le0 ms = true -> delay ms async now = delay zero async now) /\
  delay (Finite (-5)) async now = delay (Finite 0) async now.
Proof.
  split; [| split; [| split; [| split; [| split]]]].
  - rewrite delay_unfold. cbv zeta. now rewrite delay_normalized.
  - rewrite delay_unfold. cbv zeta. now rewrite delay_normalized.
  - intros q ->. apply normalized_finite.
  - intros q -> Hf. rewrite delay_unfold. cbv zeta.
    now rewrite delay_normalized, normalized_finite, Hf.
  - intros H. rewrite !delay_unfold. cbv zeta. now rewrite H.
  - rewrite !delay_unfold. reflexivity.
Qed.

(** On a host whose timer takes long for anything but a natural number,
    a delay of three and a half takes three time units and a negative
    delay none: the timer has been handed 3 and 0. *)
Lemma delay_pauses_normalized_witness :
  fires (Host:=fussy) (Finite (7 # 2)) 10 = 1010 /\
  delay (host:=fussy) (Finite (7 # 2)) (of_ (Plain 1)) 10
  = mkPromise [] (Fulfilled 13 1) /\
  fires (Host:=fussy) (Finite (-2)) 10 = 1010 /\
  delay (host:=fussy) (Finite (-2)) (of_ (Plain 1)) 10
  = delay (host:=fussy) zero (of_ (Plain 1)) 10 /\
  delay (host:=fussy) zero (of_ (Plain 1)) 10 = mkPromise [] (Fulfilled 10 1).
Proof.
  split; [reflexivity |].
  split.
  { exact (proj1 (proj2 (proj2 (proj2
             (@delay_pauses_normalized fussy nat (Finite (7 # 2)) (of_ (Plain 1)) 10))))
           (7 # 2)%Q eq_refl eq_refl). }
  split; [reflexivity |].
  split; [| reflexivity].
  exact (proj1 (proj2 (proj2 (proj2 (proj2
           (@delay_pauses_normalized fussy nat (Finite (-2)) (of_ (Plain 1)) 10)))))
         eq_refl).
Defined.

(** A spy behind [map] and [delay]: started at 20, it is called at 25;
    never started, it is never called. *)
Lemma construction_performs_no_work_witness :
  cold (of_ (Plain 1)) /\
  cold (delay (host:=punctual) (Finite 5)
          (map (fun n => tell "spy" ;;; ret (Plain (n + 1))) (of_ (Plain 1)))) /\
  observed (delay (host:=punctual) (Finite 5)
              (map (fun n => tell "spy" ;;; ret (Plain (n + 1))) (of_ (Plain 1)))) [20]
  = [(25, "spy"%string)] /\
  observed (delay (host:=punctual) (Finite 5)
              (map (fun n => tell "spy" ;;; ret (Plain (n + 1))) (of_ (Plain 1)))) []
  = [].
Proof.
  pose proof (construction_performs_no_work nat nat)
    as [_ [Hnone [_ [Hof [Hmap [_ Hdelay]]]]]].
  split; [apply Hof |].
  split; [apply Hdelay, Hmap, Hof |].
  split; [reflexivity | apply Hnone].
Defined.

(** A promise that was started before it is handed to [ofPromise] is not
    made cold by it. *)
Example ofPromise_is_hot :
  ~ cold (ofPromise (mkPromise [(0, "spy"%string)] (Fulfilled 0 tt))).
Proof.
  intros H. destruct (H 1) as [He _].
  specialize (He 0 "spy"%string (or_introl eq_refl)). lia.
Qed.

(** ** [sequential] *)

Section Sequential.
Context {A : Type}.

(** The effects of the loop are those of the run, whatever its end. *)
Lemma loop_effects (asyncs : list (Async A)) (results : list A) (now : nat) :
  effects (sequential_loop asyncs results now)
  = flat_map (fun step => effects (snd step)) (in_series asyncs now).
Proof.
  revert results now.
  induction asyncs as [| async rest IH]; intros results now; simpl; [reflexivity |].
  unfold await. destruct (settled (async now)) as [t r | t e |]; simpl.
  - now rewrite IH.
  - now rewrite app_nil_r.
  - now rewrite app_nil_r.
Qed.

(** If every promise of the run is fulfilled, so is the loop, at the end
    of the run, with the values of the run after those it had. *)
Lemma loop_settled (asyncs : list (Async A)) (results : list A) (now : nat) :
  forallb (fun step => fulfilled (snd step)) (in_series asyncs now) = true ->
  settled (sequential_loop asyncs results now)
  = Fulfilled (finish (in_series asyncs now) now)
              (results ++ values (in_series asyncs now)).
Proof.
  revert results now.
  induction asyncs as [| async rest IH]; intros results now H; simpl.
  - now rewrite app_nil_r.
  - simpl in H. apply andb_prop in H. destruct H as [Hp H].
    unfold fulfilled in Hp. simpl in Hp.
    unfold await, values. simpl.
    destruct (settled (async now)) as [t r | t e |]; try discriminate.
    simpl. rewrite IH by exact H.
    now rewrite <- app_assoc.
Qed.

(** In a run every producer is invoked if all promises are fulfilled. *)
Lemma in_series_length (asyncs : list (Async A)) (now : nat) :
  forallb (fun step => fulfilled (snd step)) (in_series asyncs now) = true ->
  List.length (in_series asyncs now) = List.length asyncs.
Proof.
  revert now. induction asyncs as [| async rest IH]; intros now H; simpl; [reflexivity |].
  simpl in H. apply andb_prop in H. destruct H as [Hp H].
  unfold fulfilled in Hp. simpl in Hp.
  destruct (settled (async now)) as [t r | t e |]; try discriminate.
  now rewrite IH.
Qed.

(** The [i]-th invocation of a run is that of the [i]-th producer. *)
Lemma in_series_nth (asyncs : list (Async A)) (now i s : nat) (p : Promise A) :
  nth_error (in_series asyncs now) i = Some (s, p) ->
  exists async, nth_error asyncs i = Some async /\ p = async s.
Proof.
  revert now i. induction asyncs as [| async rest IH]; intros now i H; simpl in H.
  - destruct i; discriminate.
  - destruct i as [| i]; simpl in *.
    + injection H as <- <-. eauto.
    + destruct (settled (async now)); [eauto | destruct i; discriminate ..].
Qed.

(** An invocation is followed by another only once its promise is
    fulfilled, and the next one is made at that time (or at the time of
    the invocation itself, should the promise have been fulfilled
    before). *)
Lemma in_series_next (asyncs : list (Async A)) (now i s s' : nat) (p p' : Promise A) :
  nth_error (in_series asyncs now) i = Some (s, p) ->
  nth_error (in_series asyncs now) (S i) = Some (s', p') ->
  exists t r, settled p = Fulfilled t r /\ s' = Nat.max s t.
Proof.
  revert now i. induction asyncs as [| async rest IH]; intros now i H H'; simpl in *.
  - destruct i; discriminate.
  - destruct i as [| i]; simpl in *.
    + injection H as <- <-.
      destruct (settled (async now)) as [t r | t e |]; try discriminate.
      destruct rest as [| async' rest]; simpl in H'; [discriminate |].
      injection H' as <- <-. eauto.
    + destruct (settled (async now)); [eauto | destruct i; discriminate ..].
Qed.

(** The loop over a list in two parts: the second part is taken up where
    the first part ends, if it ends well. *)
Lemma loop_app (pre post : list (Async A)) (results : list A) (now : nat) :
  sequential_loop (pre ++ post) results now
  = match settled (sequential_loop pre results now) with
    | Fulfilled T rs =>
        mkPromise (effects (sequential_loop pre results now)
                   ++ effects (sequential_loop post rs T))
                  (settled (sequential_loop post rs T))
    | _ => sequential_loop pre results now
    end.
Proof.
  revert results now.
  induction pre as [| async rest IH]; intros results now; simpl.
  - now rewrite promise_eta.
  - unfold await. destruct (settled (async now)) as [t r | t e |]; simpl; try reflexivity.
    rewrite IH.
    destruct (settled (sequential_loop rest (results ++ [r]) (Nat.max now t)))
      eqn:Hrest; simpl; rewrite ?Hrest; try reflexivity.
    now rewrite app_assoc.
Qed.

(** The run over a list in two parts, likewise. *)
Lemma in_series_app (pre post : list (Async A)) (results rs : list A) (now T : nat) :
  settled (sequential_loop pre results now) = Fulfilled T rs ->
  in_series (pre ++ post) now = in_series pre now ++ in_series post T.
Proof.
  revert results now.
  induction pre as [| async rest IH]; intros results now H; simpl in *.
  - now injection H as <- _.
  - unfold await in H.
    destruct (settled (async now)) as [t r | t e |]; simpl in H; try discriminate.
    now rewrite (IH _ _ H).
Qed.

(** The values of a run are those of its promises, one for one. *)
Lemma values_positional (steps : list (nat * Promise A)) :
  forallb (fun step => fulfilled (snd step)) steps = true ->
  Forall2 (fun step r => exists t, settled (snd step) = Fulfilled t r)
          steps (values steps).
Proof.
  induction steps as [| [s p] steps IH]; intros H; simpl in *; [constructor |].
  apply andb_prop in H. destruct H as [Hp H].
  unfold fulfilled in Hp. simpl in Hp.
  destruct (settled p) as [t r | t e |] eqn:Hs; try discriminate.
  simpl. constructor; [eauto | now apply IH].
Qed.
End Sequential.

(** C2: [sequential], once started, invokes the producers one at a time in
    the order of the list: the first when it is started itself, each next
    one only when the promise of the one before has been fulfilled, and at
    that moment; all its effects are those of these invocations, in this
    order; and it is fulfilled with the values of the producers in the
    order of the list. *)
Theorem sequential_one_at_a_time (A : Type) (asyncs : list (Async A)) (now : nat) :
  forallb (fun step => fulfilled (snd step)) (in_series asyncs now) = true ->
  List.length (in_series asyncs now) = List.length asyncs /\
  (forall s p, nth_error (in_series asyncs now) 0 = Some (s, p) -> s = now) /\
  (forall i s p,
      nth_error (in_series asyncs now) i = Some (s, p) ->
      exists async, nth_error asyncs i = Some async /\ p = async s) /\
  (forall i s p s' p',
      nth_error (in_series asyncs now) i = Some (s, p) ->
      nth_error (in_series asyncs now) (S i) = Some (s', p') ->
      exists t r, settled p = Fulfilled t r /\ t <= s' /\ s' = Nat.max s t) /\
  effects (sequential asyncs now)
  = flat_map (fun step => effects (snd step)) (in_series asyncs now) /\
  settled (sequential asyncs now)
  = Fulfilled (finish (in_series asyncs now) now) (values (in_series asyncs now)) /\
  Forall2 (fun step r => exists t, settled (snd step) = Fulfilled t r)
          (in_series asyncs now) (values (in_series asyncs now)).
Proof.
  intros H.
  split; [now apply in_series_length |].
  split.
  { intros s p H0. destruct asyncs; simpl in H0; [discriminate |]. congruence. }
  split; [intros i s p; apply in_series_nth |].
  split.
  { intros i s p s' p' H0 H1.
    destruct (in_series_next _ _ _ H0 H1) as [t [r [Hs ->]]].
    exists t, r. repeat split; [exact Hs | lia]. }
  split; [apply loop_effects |].
  split; [| now apply values_positional].
  unfold sequential. now rewrite loop_settled.
Qed.

(** Three producers that log when they run, the first two behind delays of
    50 and 10: the log is in the order of the list and so are the values. *)
Lemma sequential_one_at_a_time_witness :
  effects (sequential three_spies 0)
  = [(50, "r1"%string); (60, "r2"%string); (60, "r3"%string)] /\
  settled (sequential three_spies 0)
  = Fulfilled 60 ["r1"%string; "r2"%string; "r3"%string].
Proof.
  destruct (@sequential_one_at_a_time string three_spies 0 eq_refl)
    as [_ [_ [_ [_ [He [Hs _]]]]]].
  split.
  - rewrite He. reflexivity.
  - rewrite Hs. reflexivity.
Defined.

(** C9: when the producers before some position are all fulfilled and the
    one at that position is rejected, the promise of [sequential] is
    rejected with the same reason, and what comes after that position is
    never invoked: the outcome, effects included, and the invocations made
    are the same whatever producers follow. *)
Theorem sequential_stops_at_rejection (A : Type)
  (pre post : list (Async A)) (async : Async A) (now T t : nat) (rs : list A) (e : jsval) :
  settled (sequential pre now) = Fulfilled T rs ->
  settled (async T) = Rejected t e ->
  sequential (pre ++ async :: post) now
  = mkPromise (effects (sequential pre now) ++ effects (async T))
              (Rejected (Nat.max T t) e) /\
  in_series (pre ++ async :: post) now = in_series pre now ++ [(T, async T)].
Proof.
  intros Hpre Hasync. unfold sequential in *. split.
  - rewrite loop_app, Hpre. simpl. unfold await. rewrite Hasync. reflexivity.
  - rewrite (@in_series_app A pre (async :: post) [] rs now T Hpre).
    simpl. now rewrite Hasync.
Qed.

Lemma sequential_stops_at_rejection_witness :
  sequential ([delay (host:=punctual) (Finite 5) (spy "r1")]
              ++ failing :: [spy "r3"; spy "r4"]) 1
  = mkPromise [(6, "r1"%string); (6, "failing"%string)] (Rejected 9 (JStr "no")).
Proof.
  exact (proj1 (@sequential_stops_at_rejection string
                  [delay (host:=punctual) (Finite 5) (spy "r1")]
                  [spy "r3"; spy "r4"] failing
                  1 6 9 ["r1"%string] (JStr "no") eq_refl eq_refl)).
Defined.

(** ** [parallel] *)

Section Parallel.
Context {A : Type}.

Lemma all_fulfilled_outcomes (now : nat)
  (ss : list (settlement A)) (outcomes : list (nat * A)) :
  Forall2 (fun s o => s = Fulfilled (fst o) (snd o)) ss outcomes ->
  first_rejection now ss = None /\
  all_fulfilled ss = Some (list_max (List.map fst outcomes), List.map snd outcomes).
Proof.
  induction 1 as [| s o ss outcomes Hs _ [IHr IHf]]; simpl; [now split |].
  subst s. now rewrite IHr, IHf.
Qed.

(** [parallel] invokes every producer when it is started itself. *)
Lemma parallel_effects (asyncs : list (Async A)) (now : nat) :
  effects (parallel asyncs now)
  = List.concat (List.map (fun async => effects (async now)) asyncs).
Proof.
  unfold parallel, Promise_all, start. simpl. now rewrite List.map_map.
Qed.
End Parallel.

(** C3: when all the producers are fulfilled, [parallel], once started, is
    fulfilled with their values in the order of the list, the value at a
    position being that of the producer at this position, whenever each of
    them is fulfilled; this happens when the last of them is fulfilled.
    All of them are invoked at the start. *)
Theorem parallel_positional_order (A : Type)
  (asyncs : list (Async A)) (outcomes : list (nat * A)) (now : nat) :
  Forall2 (fun async o => settled (async now) = Fulfilled (fst o) (snd o))
          asyncs outcomes ->
  settled (parallel asyncs now)
  = Fulfilled (Nat.max now (list_max (List.map fst outcomes))) (List.map snd outcomes) /\
  effects (parallel asyncs now)
  = List.concat (List.map (fun async => effects (async now)) asyncs).
Proof.
  intros H. split; [| apply parallel_effects].
  unfold parallel, Promise_all, start. simpl. rewrite List.map_map.
  destruct (@all_fulfilled_outcomes A now
              (List.map (fun async : Async A => settled (async now)) asyncs) outcomes)
    as [Hr Hf].
  { clear -H. induction H; simpl; constructor; auto. }
  now rewrite Hr, Hf.
Qed.

(** The first producer is fulfilled at 50, the second at 10: the second is
    seen to run first, and the values are still in the order of the list. *)
Lemma parallel_positional_order_witness :
  settled (parallel two_spies 0) = Fulfilled 50 ["r1"%string; "r2"%string] /\
  timeline (effects (parallel two_spies 0)) = [(10, "r2"%string); (50, "r1"%string)].
Proof.
  split; [| reflexivity].
  assert (H : Forall2 (fun (async : Async string) o =>
                         settled (async 0) = Fulfilled (fst o) (snd o))
                      two_spies [(50, "r1"%string); (10, "r2"%string)]).
  { repeat constructor. }
  exact (proj1 (@parallel_positional_order _ _ _ 0 H)).
Defined.

End AsyncFacts.

(* ===================================================================== *)
(** * More about [Result] *)
(* ===================================================================== *)

Module ResultLaws.
Import Result Spec.

(** Runs a synchronous call down to its log and completion. *)
Ltac run_sync m :=
  let l := fresh "l" in
  let x := fresh "x" in
  let v := fresh "v" in
  unfold seq; simpl;
  destruct m as [l [x | v]]; simpl; rewrite ?app_nil_r; try reflexivity.

(** [mapBoth(f, g)] is [map(f)] followed by [mapErr(g)], and just as well
    [mapErr(g)] followed by [map(f)]: the calls made, what is thrown and
    the result are the same. *)
Theorem mapBoth_map_mapErr (A B E E2 : Type)
  (f : A -> Sync B) (g : E -> Sync E2) (r : Result A E) :
  mapBoth f g r = (r' <- map f r ;; mapErr g r') /\
  mapBoth f g r = (r' <- mapErr g r ;; map f r').
Proof.
  destruct r as [a | e]; split; unfold mapBoth, map, mapErr; simpl.
  - run_sync (f a).
  - run_sync (f a).
  - run_sync (g e).
  - run_sync (g e).
Qed.

(** [map] is a functor on every [Result]: mapping the identity changes
    nothing, and mapping [f] and then [g] is mapping [g] after [f]. *)
Theorem map_functor (A B C E : Type)
  (f : A -> Sync B) (g : B -> Sync C) (r : Result A E) :
  map (fun a => ret a) r = ret r /\
  (r' <- map f r ;; map g r') = map (fun a => b <- f a ;; g b) r.
Proof.
  destruct r as [a | e]; split; try reflexivity.
  unfold map; simpl. destruct (f a) as [l [b | v]]; unfold seq; simpl; try reflexivity.
  destruct (g b) as [l' [c | v']]; simpl; now rewrite ?app_nil_r, ?app_assoc.
Qed.

(** [bind] with [Ok] on the right changes nothing, [bind] is associative
    on every [Result] (an [Err] too), and [map(f)] is [bind] of [f]
    followed by [Ok]. *)
Theorem bind_monad (A B C E : Type)
  (f : A -> Sync (Result B E)) (g : B -> Sync (Result C E))
  (h : A -> Sync B) (r : Result A E) :
  bind (fun a => ret (Ok a)) r = ret r /\
  (r' <- bind f r ;; bind g r') = bind (fun a => r' <- f a ;; bind g r') r /\
  map h r = bind (fun a => b <- h a ;; ret (Ok b)) r.
Proof.
  destruct r as [a | e]; repeat split.
Qed.

(** [map2] and [map3] are what [bind] and [map] give when nested from
    left to right: the later elements of the tuple are only looked at when
    the earlier ones are [Ok]. *)
Theorem map2_map3_by_bind (A B C D E : Type)
  (f : A -> B -> Sync D) (g : A -> B -> C -> Sync D)
  (r0 : Result A E) (r1 : Result B E) (r2 : Result C E) :
  map2 f (r0, r1) = bind (fun a => map (f a) r1) r0 /\
  map3 g (r0, r1, r2) = bind (fun a => bind (fun b => map (g a b) r2) r1) r0.
Proof.
  destruct r0, r1, r2; split; reflexivity.
Qed.

(** [tee] calls [f] on the payload of an [Ok] and on nothing else, and
    [teeErr] likewise on an [Err]; when they return, they return the
    [Result] they were given, and when [f] throws, so do they. *)
Theorem tee_keeps_result (A E : Type)
  (f : A -> Sync unit) (g : E -> Sync unit) (r : Result A E) :
  (forall r', outcome (tee f r) = Normal r' -> r' = r) /\
  (forall r', outcome (teeErr g r) = Normal r' -> r' = r) /\
  log (tee f r) = match r with Ok a => log (f a) | Err _ => [] end /\
  log (teeErr g r) = match r with Ok _ => [] | Err e => log (g e) end /\
  (forall a v, r = Ok a -> outcome (f a) = Throw v -> outcome (tee f r) = Throw v) /\
  (forall e v, r = Err e -> outcome (g e) = Throw v -> outcome (teeErr g r) = Throw v).
Proof.
  unfold tee, teeErr.
  destruct r as [a | e]; simpl; repeat split; intros; try congruence.
  - unfold seq in H. destruct (outcome (f a)); simpl in H; congruence.
  - unfold seq. destruct (outcome (f a)); simpl; now rewrite ?app_nil_r.
  - injection H as <-. unfold seq. now rewrite H0.
  - unfold seq in H. destruct (outcome (g e)); simpl in H; congruence.
  - unfold seq. destruct (outcome (g e)); simpl; now rewrite ?app_nil_r.
  - injection H as <-. unfold seq. now rewrite H0.
Qed.

Lemma tee_keeps_result_witness :
  outcome (tee (E:=string) (fun n : Z => tell "seen") (Ok 23%Z)) = Normal (Ok 23%Z) /\
  outcome (tee (E:=string) (fun n : Z => throw (JStr "no")) (Ok 23%Z)) = Throw (JStr "no").
Proof.
  split.
  - destruct (outcome (tee (E:=string) (fun n : Z => tell "seen") (Ok 23%Z))) as [r' |] eqn:H.
    + f_equal.
      exact (proj1 (@tee_keeps_result Z string (fun _ => tell "seen") (fun _ => ret tt)
                      (Ok 23%Z)) r' H).
    + discriminate H.
  - exact (proj1 (proj2 (proj2 (proj2 (proj2
             (@tee_keeps_result Z string (fun _ => throw (JStr "no")) (fun _ => ret tt)
                (Ok 23%Z))))))
           23%Z (JStr "no") eq_refl eq_refl).
Defined.

(** [defaultWith(f)] calls [f] on an [Err] only, and an [Ok] gives its
    payload whatever the default is.  Where the default is not a function,
    [defaultValue] is [defaultWith] of the function that returns it. *)
Theorem defaultWith_lazy (A E : Type) (typeof_A : Typeof E A)
  (f : unit -> Sync A) (d : A) (r : Result A E) :
  (forall a, r = Ok a -> defaultWith f r = ret a /\ defaultValue d r = ret a) /\
  (forall e, r = Err e -> defaultWith f r = f tt) /\
  (typeof_function d = None -> defaultValue d r = defaultWith (fun _ => ret d) r).
Proof.
  unfold defaultWith, defaultValue, match_.
  destruct r as [a | e]; simpl; repeat split; intros; try congruence.
  now rewrite H.
Qed.

Lemma defaultWith_lazy_witness :
  defaultWith (E:=string) (fun _ => tell "computed" ;;; ret 0%Z) (Ok 7%Z) = ret 7%Z /\
  defaultValue (E:=string) 0%Z (Err "melted"%string)
  = defaultWith (fun _ => ret 0%Z) (Err "melted"%string).
Proof.
  split.
  - exact (proj1 (proj1 (@defaultWith_lazy Z string _
                           (fun _ => tell "computed" ;;; ret 0%Z) 0%Z (Ok 7%Z))
                        7%Z eq_refl)).
  - exact (proj2 (proj2 (@defaultWith_lazy Z string _
                           (fun _ => ret 0%Z) 0%Z (Err "melted"%string)))
                 eq_refl).
Defined.





(** [map], [mapErr], [mapBoth], [tee] and [teeErr] return an [Ok] for an
    [Ok] and an [Err] for an [Err], whatever their functions do, and
    [isErr] is the opposite of [isOk]. *)
Theorem tag_preserved (A B E E2 : Type)
  (f : A -> Sync B) (g : E -> Sync E2) (t : A -> Sync unit) (u : E -> Sync unit)
  (r : Result A E) :
  isErr r = negb (isOk r) /\
  (forall r', outcome (map f r) = Normal r' -> isOk r' = isOk r) /\
  (forall r', outcome (mapErr g r) = Normal r' -> isOk r' = isOk r) /\
  (forall r', outcome (mapBoth f g r) = Normal r' -> isOk r' = isOk r) /\
  (forall r', outcome (tee t r) = Normal r' -> isOk r' = isOk r) /\
  (forall r', outcome (teeErr u r) = Normal r' -> isOk r' = isOk r).
Proof.
  unfold map, mapErr, mapBoth, tee, teeErr, seq.
  destruct r as [a | e]; simpl;
    [destruct (f a) as [? [? | ?]], (t a) as [? [[] | ?]]
    | destruct (g e) as [? [? | ?]], (u e) as [? [[] | ?]]];
    simpl; repeat split; intros r' H;
    try discriminate; injection H as <-; reflexivity.
Qed.

Lemma tag_preserved_witness :
  isOk (Err (A:=Z) 13%Z) = isOk (Err (A:=Z) "cheese melted"%string).
Proof.
  exact (proj1 (proj2 (proj2
           (@tag_preserved Z Z string Z (fun a => ret a)
              (fun s => ret (Z.of_nat (String.length s)))
              (fun _ => ret tt) (fun _ => ret tt) (Err "cheese melted"%string))))
         (Err 13%Z) eq_refl).
Defined.

(** [bind(f)] gives an [Ok] only for an [Ok] on which [f] gives that
    [Ok]. *)
Theorem bind_Ok_only_from_Ok (A B E : Type)
  (f : A -> Sync (Result B E)) (r : Result A E) (b : B) :
  outcome (bind f r) = Normal (Ok b) ->
  exists a, r = Ok a /\ outcome (f a) = Normal (Ok b).
Proof.
  destruct r as [a | e]; simpl; intros H; [eauto | discriminate].
Qed.

Lemma bind_Ok_only_from_Ok_witness :
  exists a, Ok (E:=string) "a"%string = Ok a /\
            outcome (if String.eqb a "a" then ret (Ok "got an a!"%string)
                     else ret (Err "not an a"%string))
            = Normal (Ok "got an a!"%string).
Proof.
  exact (@bind_Ok_only_from_Ok string string string
           (fun s => if String.eqb s "a" then ret (Ok "got an a!"%string)
                     else ret (Err "not an a"%string))
           (Ok "a"%string) "got an a!"%string eq_refl).
Defined.

End ResultLaws.

(* ===================================================================== *)
(** * More about [Async] *)
(* ===================================================================== *)

Module AsyncLaws.
Import Async Spec AsyncFacts.

Lemma stamp_app (t : nat) (l l' : list event) :
  stamp t (l ++ l') = stamp t l ++ stamp t l'.
Proof. apply List.map_app. Qed.

Lemma not_before_id {A} (t : nat) (s : settlement A) :
  settles_from t s -> not_before t s = s.
Proof. destruct s; simpl; intros H; f_equal; lia. Qed.

Lemma not_before_twice {A} (t u : nat) (s : settlement A) :
  not_before t (not_before u s) = not_before (Nat.max t u) s.
Proof. destruct s; simpl; f_equal; lia. Qed.

Lemma not_before_resolved {A} (t : nat) (v : Resolvable A) :
  not_before t (resolved v t) = resolved v t.
Proof. apply not_before_id, settles_from_resolved. lia. Qed.

(** Brings the times of a goal to a normal form. *)
Ltac times :=
  repeat match goal with
         | |- context [Nat.max ?a (Nat.max ?a ?b)] =>
             replace (Nat.max a (Nat.max a b)) with (Nat.max a b) by lia
         | |- context [Nat.max ?a ?a] =>
             replace (Nat.max a a) with a by lia
         end.

(** Removes the maxima of a goal that are decided by the order of their
    arguments. *)
Ltac decide_max :=
  repeat match goal with
         | |- context [Nat.max ?a ?b] =>
             first [rewrite (Nat.max_r a b) by lia | rewrite (Nat.max_l a b) by lia]
         end.

(** [map] composes: when [f] returns values that are not promises, mapping
    [f] and then [g] is mapping [g] after [f], with the same calls at the
    same times, the same rejection when one of them throws, and the same
    settlement, whatever [g] returns.  When [f] returns a promise, the
    first [map] follows it, and [g] is called with its value once it is
    fulfilled, not with the promise. *)
Theorem map_compose (A B C : Type)
  (f : A -> Sync B) (f' : A -> Sync (Resolvable B)) (g : B -> Sync (Resolvable C))
  (async : Async A) (now : nat) :
  map g (map (fun a => b <- f a ;; ret (Plain b)) async) now
  = map (fun a => b <- f a ;; g b) async now /\
  (forall t a l u b,
      settled (async now) = Fulfilled t a ->
      f' a = mkSync l (Normal (APromise (Fulfilled u b))) ->
      map g (map f' async) now
      = mkPromise ((effects (async now) ++ stamp (Nat.max now t) l)
                   ++ stamp (Nat.max (Nat.max now t) u) (log (g b)))
                  match outcome (g b) with
                  | Normal v => resolved v (Nat.max (Nat.max now t) u)
                  | Throw v => Rejected (Nat.max (Nat.max now t) u) v
                  end).
Proof.
  split.
  - unfold map, then_.
    destruct (settled (async now)) as [t a | t e |]; simpl; times; try reflexivity.
    unfold seq. destruct (f a) as [l [b | v]]; simpl; times; try reflexivity.
    rewrite app_nil_r, stamp_app, app_assoc.
    destruct (outcome (g b)); reflexivity.
  - intros t a l u b Ha Hf. unfold map, then_. rewrite Ha. simpl. rewrite Hf. simpl.
    decide_max. reflexivity.
Qed.

Lemma map_compose_witness :
  map (fun s => tell "g" ;;; ret (Plain (String.length s)))
      (map (fun _ : unit => ret (APromise (Fulfilled 9 "late"%string))) unit_) 2
  = mkPromise [(9, "g"%string)] (Fulfilled 9 4).
Proof.
  exact (proj2 (@map_compose unit string nat (fun _ => ret "late"%string)
                  (fun _ => ret (APromise (Fulfilled 9 "late"%string)))
                  (fun s => tell "g" ;;; ret (Plain (String.length s))) unit_ 2)
               2 tt [] 9 "late"%string eq_refl eq_refl).
Defined.

(** Mapping the identity adds no effect and keeps the settlement, seen
    from the start on; on a cold producer it changes nothing at all. *)
Theorem map_identity (A : Type) (async : Async A) (now : nat) :
  effects (map (fun a => ret (Plain a)) async now) = effects (async now) /\
  settled (map (fun a => ret (Plain a)) async now)
  = not_before now (settled (async now)) /\
  (cold async -> map (fun a => ret (Plain a)) async now = async now).
Proof.
  assert (He : effects (map (fun a => ret (Plain a)) async now) = effects (async now)).
  { unfold map, then_. destruct (settled (async now)); simpl; now rewrite ?app_nil_r. }
  assert (Hs : settled (map (fun a => ret (Plain a)) async now)
               = not_before now (settled (async now))).
  { unfold map, then_. destruct (settled (async now)); reflexivity. }
  repeat split; [exact He | exact Hs |].
  intros H. rewrite <- (promise_eta (map _ async now)), He, Hs.
  rewrite not_before_id by apply (H now). apply promise_eta.
Qed.

Lemma tee_as_map {A} (f : A -> Sync unit) (async : Async A) (now : nat) :
  tee f async now = map (fun a => f a ;;; ret (Plain a)) async now.
Proof.
  unfold tee, map, await, exec, then_, return_.
  destruct (settled (async now)) as [t a | t e |]; simpl; try reflexivity.
  unfold seq. destruct (f a) as [l [[] | v]]; simpl; now rewrite ?app_nil_r.
Qed.

Lemma cold_tee {A} (f : A -> Sync unit) (async : Async A) :
  cold async -> cold (tee f async).
Proof.
  intros H now. rewrite tee_as_map. now apply cold_map.
Qed.

Lemma cold_spy (r : string) : cold (spy r).
Proof. apply cold_tee, cold_of. Qed.

Lemma map_identity_witness :
  map (fun a => ret (Plain a)) (delay (host:=punctual) (Finite 5) (spy "r1")) 2
  = delay (host:=punctual) (Finite 5) (spy "r1") 2.
Proof.
  apply (proj2 (proj2 (map_identity (delay (host:=punctual) (Finite 5) (spy "r1")) 2))).
  apply cold_delay, cold_spy.
Defined.

(** [bind] and [of]: [of] of a value on the left and [of] on the right
    change nothing on cold producers; [of] of a promise on the left makes
    [bind] wait for the promise, call [f] on its value when it is
    fulfilled and not at all when it is rejected; and [map(f)] is [bind]
    of [f] followed by [of], on every producer and whatever [f] returns. *)
Theorem bind_identities (A B : Type)
  (f : A -> Sync (Async B)) (h : A -> Sync (Resolvable B))
  (async : Async A) (a : A) (now : nat) :
  (forall g, f a = ret g -> cold g -> bind f (of_ (Plain a)) now = g now) /\
  (forall g u, f a = ret g -> cold g ->
               bind f (of_ (APromise (Fulfilled u a))) now = g (Nat.max now u)) /\
  (forall u e, bind f (of_ (APromise (Rejected u e))) now
               = mkPromise [] (Rejected (Nat.max now u) e)) /\
  (cold async -> bind (fun a => ret (of_ (Plain a))) async now = async now) /\
  map h async now = bind (fun a => v <- h a ;; ret (of_ v)) async now.
Proof.
  split; [| split; [| split; [| split]]].
  - intros g Hf Hg. unfold bind, then_flat, of_, Promise_resolve. simpl.
    rewrite Hf. simpl. times.
    rewrite not_before_id by apply (Hg now). apply promise_eta.
  - intros g u Hf Hg. unfold bind, then_flat, of_, Promise_resolve. simpl.
    rewrite Hf. simpl. times.
    rewrite not_before_id by apply (Hg (Nat.max now u)). apply promise_eta.
  - intros u e. unfold bind, then_flat, of_, Promise_resolve. simpl. times.
    reflexivity.
  - intros H. unfold bind, then_flat, of_, Promise_resolve.
    pose proof (proj2 (H now)) as Hs.
    destruct (async now) as [ef [t x | t e |]]; simpl in *;
      rewrite ?app_nil_r; repeat f_equal; lia.
  - unfold map, bind, then_, then_flat, of_, Promise_resolve.
    destruct (settled (async now)) as [t x | t e |]; simpl; try reflexivity.
    unfold seq. destruct (h x) as [l [v | v]]; simpl; rewrite ?app_nil_r;
      [now rewrite not_before_resolved | reflexivity].
Qed.

Lemma bind_identities_witness :
  bind (fun s => ret (spy s)) (of_ (Plain "a"%string)) 3 = spy "a" 3 /\
  bind (fun s => ret (spy s)) (of_ (APromise (Fulfilled 8 "a"%string))) 3 = spy "a" 8.
Proof.
  split.
  - apply (proj1 (@bind_identities string string (fun s => ret (spy s))
                    (fun s => ret (Plain s)) (of_ (Plain "a"%string)) "a"%string 3)
                 (spy "a") eq_refl).
    apply cold_spy.
  - apply (proj1 (proj2 (@bind_identities string string (fun s => ret (spy s))
                           (fun s => ret (Plain s)) (of_ (Plain "a"%string))
                           "a"%string 3))
                 (spy "a") 8 eq_refl).
    apply cold_spy.
Defined.

(** [flatten] is [bind] of the identity, and flattening [of] of a cold
    producer gives it back. *)
Theorem flatten_bind (A : Type) (async : Async (Async A)) (inner : Async A) (now : nat) :
  flatten async now = bind (fun inner => ret inner) async now /\
  (cold inner -> flatten (of_ (Plain inner)) now = inner now).
Proof.
  split; [reflexivity |].
  intros H. unfold flatten, then_flat, of_, Promise_resolve. simpl. times.
  rewrite not_before_id by apply (H now). apply promise_eta.
Qed.

Lemma flatten_bind_witness :
  flatten (of_ (Plain (spy "r1"))) 4 = spy "r1" 4.
Proof.
  apply (proj2 (flatten_bind (of_ (Plain (spy "r1"))) (spy "r1") 4)).
  apply cold_spy.
Defined.

(** [tee(f)] is [map] of the function that calls [f] and returns its
    argument: the value goes through unchanged, and if [f] throws the
    promise is rejected. *)
Theorem tee_map (A : Type) (f : A -> Sync unit) (async : Async A) (now : nat) :
  tee f async now = map (fun a => f a ;;; ret (Plain a)) async now /\
  (forall t a, settled (tee f async now) = Fulfilled t a ->
               exists t0, settled (async now) = Fulfilled t0 a /\ t = Nat.max now t0).
Proof.
  split; [apply tee_as_map |].
  intros t a. rewrite tee_as_map. unfold map, then_.
  destruct (settled (async now)) as [t0 a0 | t0 e |]; simpl; try discriminate.
  unfold seq. destruct (outcome (f a0)); simpl; try discriminate.
  intros H0. injection H0 as <- <-. eauto.
Qed.

Lemma tee_map_witness :
  exists t0, settled (of_ (Plain 20) 6) = Fulfilled t0 20 /\ 6 = Nat.max 6 t0.
Proof.
  exact (proj2 (tee_map (fun _ => tell "seen") (of_ (Plain 20)) 6) 6 20 eq_refl).
Defined.

(** ** The rejection that [Promise.all] hears of first *)

Section Rejection.
Context {A : Type}.

Lemma first_rejection_In (now : nat) (ss : list (settlement A)) (t : nat) (e : jsval) :
  first_rejection now ss = Some (t, e) ->
  exists u, In (Rejected u e) ss /\ t = Nat.max now u.
Proof.
  induction ss as [| s ss IH]; simpl; [discriminate |].
  destruct s as [u a | u x |];
    try (intros H; destruct (IH H) as [u' [Hin Ht]]; exists u'; now auto).
  destruct (first_rejection now ss) as [[t' e'] |].
  - destruct (Nat.max now u <=? t'); intros H; injection H as <- <-.
    + exists u. auto.
    + destruct (IH eq_refl) as [u' [Hin Ht]]. exists u'. auto.
  - intros H. injection H as <- <-. exists u. auto.
Qed.


Lemma first_rejection_none (now : nat) (ss : list (settlement A)) :
  (forall t e, ~ In (Rejected t e) ss) -> first_rejection now ss = None.
Proof.
  intros H. destruct (first_rejection now ss) as [[t e] |] eqn:Hf; [| reflexivity].
  destruct (first_rejection_In _ _ Hf) as [u [Hin _]]. now elim (H u e).
Qed.


Lemma all_fulfilled_pending (ss : list (settlement A)) :
  In Pending ss -> all_fulfilled ss = None.
Proof.
  induction ss as [| s ss IH]; simpl; [tauto |].
  intros [-> | Hin]; [reflexivity |].
  destruct s; try reflexivity. now rewrite IH.
Qed.
End Rejection.

(** ** Cold producers stay cold *)

Section MoreCold.
Context {A : Type}.

Lemma loop_cold (asyncs : list (Async A)) :
  Forall cold asyncs ->
  forall results now,
    (forall t e, In (t, e) (effects (sequential_loop asyncs results now)) -> now <= t) /\
    settles_from now (settled (sequential_loop asyncs results now)).
Proof.
  induction 1 as [| async rest Hc _ IH]; intros results now; simpl.
  - split; [tauto | lia].
  - destruct (Hc now) as [He Hs]. unfold await.
    destruct (settled (async now)) as [t r | t e |]; simpl in *.
    + destruct (IH (results ++ [r]) (Nat.max now t)) as [IHe IHs]. split.
      * intros u e Hin. apply in_app_or in Hin. destruct Hin as [Hin | Hin];
          [eauto | pose proof (IHe _ _ Hin); lia].
      * eapply settles_from_le; [| exact IHs]. lia.
    + split; [eauto | lia].
    + split; [eauto | exact I].
Qed.

Lemma cold_sequential (asyncs : list (Async A)) :
  Forall cold asyncs -> cold (sequential asyncs).
Proof. intros H now. now apply loop_cold. Qed.

Lemma cold_parallel (asyncs : list (Async A)) :
  Forall cold asyncs -> cold (parallel asyncs).
Proof.
  intros H now. split.
  - intros t e Hin. rewrite parallel_effects in Hin.
    apply in_concat in Hin. destruct Hin as [l [Hl Hin]].
    apply in_map_iff in Hl. destruct Hl as [async [<- Ha]].
    rewrite Forall_forall in H. exact (proj1 (H async Ha now) t e Hin).
  - unfold parallel, Promise_all. simpl.
    destruct (first_rejection now _) as [[t e] |] eqn:Hf; simpl.
    + destruct (first_rejection_In _ _ Hf) as [u [_ ->]]. lia.
    + destruct (all_fulfilled _) as [[t vs] |]; simpl; [lia | exact I].
Qed.

Lemma cold_flatten (async : Async (Async A)) :
  cold async ->
  (forall now t inner, settled (async now) = Fulfilled t inner -> cold inner) ->
  cold (flatten async).
Proof.
  intros H Hin now. destruct (H now) as [He Hs].
  unfold flatten, then_flat.
  destruct (settled (async now)) as [t inner | t e |] eqn:Hp; simpl in *.
  - destruct (Hin now t inner Hp (Nat.max now t)) as [Hie His]. split.
    + intros u e Hu. apply in_app_or in Hu. destruct Hu as [Hu | Hu];
        [eauto | pose proof (Hie _ _ Hu); lia].
    + apply settles_from_not_before. lia.
  - split; [eauto | lia].
  - split; [eauto | exact I].
Qed.
End MoreCold.

(** [sequential], [parallel], [tee] and [flatten] of cold producers are
    cold, and so is [never]: none of them does anything before it is
    started. *)
Theorem cold_combinators (A : Type) :
  (forall asyncs : list (Async A), Forall cold asyncs -> cold (sequential asyncs)) /\
  (forall asyncs : list (Async A), Forall cold asyncs -> cold (parallel asyncs)) /\
  (forall (f : A -> Sync unit) async, cold async -> cold (tee f async)) /\
  (forall async : Async (Async A),
      cold async ->
      (forall now t inner, settled (async now) = Fulfilled t inner -> cold inner) ->
      cold (flatten async)) /\
  cold (never (A:=A)).
Proof.
  split; [apply cold_sequential |].
  split; [apply cold_parallel |].
  split; [apply cold_tee |].
  split; [apply cold_flatten |].
  intros now. split; simpl; tauto.
Qed.

Lemma cold_combinators_witness :
  cold (sequential [tee (fun a => tell a) (of_ (Plain "r1"%string)); never]).
Proof.
  destruct (cold_combinators string) as [Hseq [_ [Htee [_ Hnever]]]].
  apply Hseq.
  apply Forall_cons; [apply Htee, cold_of |].
  apply Forall_cons; [apply Hnever | apply Forall_nil].
Defined.

(** ** Failure and silence in [parallel] and [sequential] *)




(** A producer whose promise never settles holds everything up:
    [sequential] stays pending and invokes none of the producers after
    it, and [parallel] stays pending unless some producer is rejected. *)
Theorem pending_forever (A : Type)
  (pre post asyncs : list (Async A)) (async : Async A) (now T : nat) (rs : list A) :
  (settled (sequential pre now) = Fulfilled T rs ->
   settled (async T) = Pending ->
   sequential (pre ++ async :: post) now
   = mkPromise (effects (sequential pre now) ++ effects (async T)) Pending) /\
  (In async asyncs ->
   settled (async now) = Pending ->
   (forall async' t e, In async' asyncs -> settled (async' now) <> Rejected t e) ->
   settled (parallel asyncs now) = Pending).
Proof.
  split.
  - intros Hpre Hp. unfold sequential in *.
    rewrite loop_app, Hpre. simpl. unfold await. rewrite Hp. reflexivity.
  - intros Hin Hp Hno.
    unfold parallel, Promise_all, start. simpl. rewrite List.map_map.
    rewrite first_rejection_none, all_fulfilled_pending; [reflexivity | |].
    + apply in_map_iff. eauto.
    + intros t e H. apply in_map_iff in H. destruct H as [async' [Hs Ha]].
      now apply (Hno async' t e Ha).
Qed.

Lemma pending_forever_witness :
  sequential ([spy "r1"] ++ never :: [spy "r3"]) 2
  = mkPromise [(2, "r1"%string)] Pending /\
  settled (parallel [spy "r1"; never; spy "r3"] 2) = Pending.
Proof.
  split.
  - exact (proj1 (@pending_forever string [spy "r1"] [spy "r3"] [] never 2 2
                    ["r1"%string]) eq_refl eq_refl).
  - apply (proj2 (@pending_forever string [] [] [spy "r1"; never; spy "r3"] never 2 2 [])).
    + simpl. tauto.
    + reflexivity.
    + intros async' t e [<- | [<- | [<- | []]]]; discriminate.
Defined.

(** ** [sequential] in parts *)

Section InParts.
Context {A : Type}.

Lemma map_value_app (acc acc' : list A) (s : settlement (list A)) :
  map_value (app acc) (map_value (app acc') s) = map_value (app (acc ++ acc')) s.
Proof. destruct s; simpl; now rewrite ?app_assoc. Qed.

(** What the loop has collected so far only goes in front of what it
    collects from here on. *)
Lemma loop_results (asyncs : list (Async A)) (results : list A) (now : nat) :
  sequential_loop asyncs results now
  = mkPromise (effects (sequential_loop asyncs [] now))
              (map_value (app results) (settled (sequential_loop asyncs [] now))).
Proof.
  revert results now.
  induction asyncs as [| async rest IH]; intros results now; simpl.
  - now rewrite app_nil_r.
  - unfold await. destruct (settled (async now)) as [t r | t e |]; simpl; try reflexivity.
    rewrite (IH (results ++ [r])), (IH [r]). cbn [effects settled].
    now rewrite map_value_app.
Qed.
End InParts.

(** [sequential] of a list in two parts is [sequential] of the first part
    and then, started when that is fulfilled, [sequential] of the second:
    the effects follow each other and the values are put together in
    order.  If the first part is rejected, the second is never started. *)
Theorem sequential_concat (A : Type)
  (pre post : list (Async A)) (now T : nat) (rs : list A) (e : jsval) :
  (settled (sequential pre now) = Fulfilled T rs ->
   sequential (pre ++ post) now
   = mkPromise (effects (sequential pre now) ++ effects (sequential post T))
               (map_value (app rs) (settled (sequential post T)))) /\
  (settled (sequential pre now) = Rejected T e ->
   sequential (pre ++ post) now = sequential pre now).
Proof.
  unfold sequential. split; intros H; rewrite loop_app, H; [| reflexivity].
  now rewrite (loop_results post rs).
Qed.

Lemma sequential_concat_witness :
  sequential ([delay (host:=punctual) (Finite 5) (spy "r1")] ++ [spy "r2"; spy "r3"]) 1
  = mkPromise [(6, "r1"%string); (6, "r2"%string); (6, "r3"%string)]
              (Fulfilled 6 ["r1"%string; "r2"%string; "r3"%string]).
Proof.
  exact (proj1 (@sequential_concat string [delay (host:=punctual) (Finite 5) (spy "r1")]
                  [spy "r2"; spy "r3"] 1 6 ["r1"%string] JNull) eq_refl).
Defined.

(** ** [bind] in a row *)

(** [bind] is associative on every producer: binding [f] and then [g] is
    binding the function that binds [g] to what [f] gives, with the same
    calls and effects at the same times and the same settlement. *)
Theorem bind_bind (A B C : Type)
  (f : A -> Sync (Async B)) (g : B -> Sync (Async C)) (async : Async A) (now : nat) :
  bind g (bind f async) now
  = bind (fun a => h <- f a ;; ret (bind g h)) async now.
Proof.
  unfold bind, then_flat.
  destruct (settled (async now)) as [t a | t e |]; simpl; decide_max; try reflexivity.
  unfold seq. destruct (f a) as [l [h | v]]; simpl; decide_max; try reflexivity.
  rewrite !app_nil_r.
  destruct (settled (h (Nat.max now t))) as [u b | u e |]; simpl; decide_max;
    rewrite <- ?app_assoc; try reflexivity.
  destruct (g b) as [l' [k | v']]; simpl; decide_max; rewrite ?app_nil_r;
    rewrite <- ?app_assoc; try reflexivity.
  rewrite not_before_twice. decide_max. reflexivity.
Qed.

(** ** Rejection *)

(** A rejected promise goes through [map], [bind], [tee] and [delay] as it
    is: the function given is not called, no effect is added, and the
    reason is kept. *)
Theorem rejection_passes_through (host : Host) (A B : Type)
  (f : A -> Sync (Resolvable B)) (g : A -> Sync (Async B)) (u : A -> Sync unit)
  (ms : number) (async : Async A) (now t : nat) (e : jsval) :
  (settled (async now) = Rejected t e ->
   map f async now = mkPromise (effects (async now)) (Rejected (Nat.max now t) e) /\
   bind g async now = mkPromise (effects (async now)) (Rejected (Nat.max now t) e) /\
   tee u async now = mkPromise (effects (async now)) (Rejected (Nat.max now t) e)) /\
  (settled (async (fires (normalized ms) now)) = Rejected t e ->
   delay ms async now
   = mkPromise (effects (async (fires (normalized ms) now)))
               (Rejected (Nat.max (fires (normalized ms) now) t) e)).
Proof.
  split; intros H.
  - unfold map, bind, tee, then_, then_flat, await. rewrite H. auto.
  - rewrite delay_unfold. cbv zeta.
    rewrite delay_normalized. now rewrite H.
Qed.

Lemma rejection_passes_through_witness :
  map (fun s => tell "mapped" ;;; ret (Plain s)) failing 4
  = mkPromise [(4, "failing"%string)] (Rejected 7 (JStr "no")) /\
  delay (host:=punctual) (Finite 5) failing 4
  = mkPromise [(9, "failing"%string)] (Rejected 12 (JStr "no")).
Proof.
  split.
  - exact (proj1 (proj1 (@rejection_passes_through punctual string string
                           (fun s => tell "mapped" ;;; ret (Plain s))
                           (fun s => ret (of_ (Plain s)))
                           (fun _ => ret tt) zero failing 4 7 (JStr "no"))
                        eq_refl)).
  - exact (proj2 (@rejection_passes_through punctual string string
                    (fun s => ret (Plain s)) (fun s => ret (of_ (Plain s)))
                    (fun _ => ret tt) (Finite 5) failing 4 12 (JStr "no"))
                 eq_refl).
Defined.

(** ** The delay as a natural number *)

(** On every host, [delay] of a finite number of milliseconds sets the
    timer with a natural number, [max(0, floor(ms))], and starts the
    producer when that timer fires.  [delay] of what is not a number sets
    the timer with what is not a number, and [delay] of the positive
    infinity with the positive infinity: these are handed to the host as
    they are. *)
Theorem delay_natural (host : Host) (A : Type) (q : Q) (async : Async A) (now : nat) :
  (exists n : nat,
      n = Z.to_nat (Z.max 0 (Qfloor q)) /\
      delay (Finite q) async now
      = mkPromise (effects (async (fires (Finite (inject_Z (Z.of_nat n))) now)))
                  (not_before (fires (Finite (inject_Z (Z.of_nat n))) now)
                     (settled (async (fires (Finite (inject_Z (Z.of_nat n))) now))))) /\
  delay NaN async now
  = mkPromise (effects (async (fires NaN now)))
              (not_before (fires NaN now) (settled (async (fires NaN now)))) /\
  delay (Infinity false) async now
  = mkPromise (effects (async (fires (Infinity false) now)))
              (not_before (fires (Infinity false) now)
                 (settled (async (fires (Infinity false) now)))).
Proof.
  split; [| split; apply delay_unfold].
  exists (Z.to_nat (Z.max 0 (Qfloor q))). split; [reflexivity |].
  rewrite delay_unfold. cbv zeta.
  rewrite delay_normalized, normalized_finite.
  now rewrite Z2Nat.id by lia.
Qed.

End AsyncLaws.
